(** * Roman / Arabic numeral converter (Cpp/lista_2/ArabRzym.cpp)

    A shallow embedding of the class [ArabRzym] and of the two global
    tables it works on, of the [main] that drives it (Cpp/lista_2/main.cpp)
    and of the class [WierszTrojkataPascala] (lista_1), followed by their
    properties.

    Conventions of the embedding:
    - a [std::string] is a [string] (a sequence of 8-bit [ascii] characters);
    - an [int] is a [Z]; where the source adds ints the two's complement
      result of a 32-bit machine is written out with [wrap_int];
    - a [throw ArabRzymException(msg)] is the outcome [Throw e], where [e]
      records which of the three messages of ArabRzym.cpp was built;
    - the nested loops of [arab2rzym] are a transition function [step] on
      the loop variables, iterated by [run]. *)

From Stdlib Require Import ZArith List Ascii String Bool Lia Sorted.
Import ListNotations.

Local Open Scope string_scope.
Local Open Scope Z_scope.

(** ** Outcomes of a call *)

(** The messages with which ArabRzym.cpp constructs an [ArabRzymException]. *)
Inductive ArabRzymException : Type :=
| OutOfRange                  (* "Liczba z poza zakresu." *)
| EmptyValue                  (* "Wartosc pusta." (with Polish diacritics) *)
| InvalidRzym (rzym : string) (* "Nieprawidlowa liczba rzymska: " + rzym *).

(** The [message] field of the exception object. *)
Definition message (e : ArabRzymException) : string :=
  match e with
  | OutOfRange => "Liczba z poza zakresu."
  | EmptyValue => "Wartość pusta."
  | InvalidRzym rzym => "Nieprawidłowa liczba rzymska: " ++ rzym
  end.

(** A call returns, throws, or is cut off by the step budget of [run]. *)
Inductive outcome (A : Type) : Type :=
| Ret (a : A)
| Throw (e : ArabRzymException)
| OutOfFuel.

Arguments Ret {A} a.
Arguments Throw {A} e.
Arguments OutOfFuel {A}.

Definition bind {A B : Type} (m : outcome A) (k : A -> outcome B) : outcome B :=
  match m with
  | Ret a => k a
  | Throw e => Throw e
  | OutOfFuel => OutOfFuel
  end.

Notation "x <- m ;; k" := (bind m (fun x => k))
  (at level 61, m at next level, right associativity).

(** ** Machine integers and characters *)

(** The value an [int] holds after an addition on a 32-bit two's complement
    machine.  (C++ leaves signed overflow undefined; only sums of strings of
    more than two million glyphs get that far.) *)
Definition wrap_int (z : Z) : Z := (z + 2147483648) mod 4294967296 - 2147483648.

Definition code (c : ascii) : N := N_of_ascii c.

(** [toupper] of <cctype> in the "C" locale. *)
Definition toupper (c : ascii) : ascii :=
  if ((97 <=? code c) && (code c <=? 122))%N
  then ascii_of_N (code c - 32)
  else c.

(** [isdigit] of <cctype>. *)
Definition isdigit (c : ascii) : bool :=
  ((48 <=? code c) && (code c <=? 57))%N.

(** ** The symbol tables *)

Definition liczbyArab : list Z :=
  [1000; 900; 500; 400; 100; 90; 50; 40; 10; 9; 5; 4; 1].

Definition liczbyRzym : list string :=
  ["M"; "CM"; "D"; "CD"; "C"; "XC"; "L"; "XL"; "X"; "IX"; "V"; "IV"; "I"].

(** ** The classifiers *)

Definition is_glyph (rzym : ascii) : bool :=
  negb (negb (Ascii.eqb rzym "I") && negb (Ascii.eqb rzym "V") &&
        negb (Ascii.eqb rzym "X") && negb (Ascii.eqb rzym "L") &&
        negb (Ascii.eqb rzym "C") && negb (Ascii.eqb rzym "D") &&
        negb (Ascii.eqb rzym "M")).

Fixpoint isValidRzym (input : string) : bool :=
  match input with
  | EmptyString => true
  | String rzym rest =>
      let rzym := toupper rzym in
      if negb (is_glyph rzym) then false else isValidRzym rest
  end.

Fixpoint isValidArab (input : string) : bool :=
  match input with
  | EmptyString => true
  | String arab rest =>
      if negb (isdigit arab) then false else isValidArab rest
  end.

(** ** Table lookups *)

(** The scan [for (int j = 0; j < 13; j++)]: a later match overwrites an
    earlier one. *)
Definition getArabic (rzymDigit : string) : Z :=
  fold_left
    (fun arabValue j =>
       if String.eqb (nth j liczbyRzym "") rzymDigit
       then nth j liczbyArab 0
       else arabValue)
    (seq 0 13) 0.

Definition getRzym (arabicDigit : Z) : string :=
  fold_left
    (fun rzymValue j =>
       if nth j liczbyArab 0 =? arabicDigit
       then nth j liczbyRzym ""
       else rzymValue)
    (seq 0 13) "".

(** ** Arabic to Roman *)

(** The variables of the loop nest of [arab2rzym]. [idx] is the counter [i]
    of the [for]; [idx = 13] is the control point of the test of the outer
    [while], before the first pass and after each pass of the [for]. *)
Record state : Type := mkState {
  arab : Z;
  idx : nat;
  result : string
}.

Definition init (n : Z) : state := mkState n 13 "".

(** One test of a loop condition together with the branch it selects.
    [None]: the outer [while] has found [arab == 0] and the loop nest is
    left. *)
Definition step (s : state) : option state :=
  if (idx s <? 13)%nat then
    if nth (idx s) liczbyArab 0 <=? arab s
    then Some (mkState (arab s - nth (idx s) liczbyArab 0) (idx s)
                       (result s ++ nth (idx s) liczbyRzym ""))
    else Some (mkState (arab s) (S (idx s)) (result s))
  else
    if negb (arab s =? 0)
    then Some (mkState (arab s) 0 (result s))
    else None.

(** At most [fuel] transitions; [Some s] is the state in which the loop
    nest was left. *)
Fixpoint run (fuel : nat) (s : state) : option state :=
  match step s with
  | None => Some s
  | Some s' =>
      match fuel with
      | O => None
      | S fuel' => run fuel' s'
      end
  end.

(** The state after exactly [k] transitions, if there are that many. *)
Fixpoint iter_step (k : nat) (s : state) : option state :=
  match k with
  | O => Some s
  | S k' =>
      match step s with
      | None => None
      | Some s' => iter_step k' s'
      end
  end.

(** Step budget given to the loop nest for the argument [n]. *)
Definition budget (n : Z) : nat := Z.to_nat n + 15.

Definition arab2rzym (n : Z) : outcome string :=
  if (n <=? 0) || (n >? 4000) then Throw OutOfRange
  else
    match run (budget n) (init n) with
    | Some s => Ret (result s)
    | None => OutOfFuel
    end.

(** ** Roman to Arabic *)

(** The loop [for (i = 0; i < rzym.size(); i++) rzym[i] = toupper(rzym[i])]. *)
Fixpoint upper (rzym : string) : string :=
  match rzym with
  | EmptyString => EmptyString
  | String c rest => String (toupper c) (upper rest)
  end.

(** The summing scan of [rzym2arab], started with the accumulator [acc];
    its argument is the part of [rzym] from position [i] on.  When a
    two-glyph entry of the table matches, the extra [i++] skips the second
    glyph. *)
Fixpoint sum_loop (rzym : string) (acc : Z) : Z :=
  match rzym with
  | EmptyString => acc
  | String c rest =>
      let rzym_elem := String c EmptyString in
      let arabValue := getArabic rzym_elem in
      match rest with
      | EmptyString => wrap_int (acc + arabValue)
      | String d rest' =>
          let possible_rzym := rzym_elem ++ String d EmptyString in
          if negb (getArabic possible_rzym =? 0)
          then sum_loop rest' (wrap_int (acc + getArabic possible_rzym))
          else sum_loop rest (wrap_int (acc + arabValue))
      end
  end.

Definition rzym2arab (rzym : string) : outcome Z :=
  if String.eqb rzym "" then Throw EmptyValue
  else
    let rzym := upper rzym in
    if negb (isValidRzym rzym) then Throw (InvalidRzym rzym)
    else
      let result := sum_loop rzym 0 in
      encoded <- arab2rzym result ;;
      if negb (String.eqb encoded rzym) then Throw (InvalidRzym rzym)
      else Ret result.

(** ** Vocabulary of the statements *)

(** The seven glyphs a Roman numeral string is made of. *)
Definition glyphs : list ascii :=
  ["I"; "V"; "X"; "L"; "C"; "D"; "M"]%char.

Definition chars (s : string) : list ascii := list_ascii_of_string s.

(** A transition that runs the body of the inner [while] once: the table
    entry [idx] is subtracted from the remaining amount and its glyphs are
    appended. *)
Definition subtracts (s s' : state) : Prop :=
  (idx s < 13)%nat /\ idx s' = idx s /\
  nth (idx s) liczbyArab 0 <= arab s /\
  arab s' = arab s - nth (idx s) liczbyArab 0 /\
  result s' = result s ++ nth (idx s) liczbyRzym "".

(** A transition that only moves control: the condition of the inner
    [while] fails and the [for] advances, or the outer [while] finds a
    remaining amount and the [for] is entered again. *)
Definition moves (s s' : state) : Prop :=
  arab s' = arab s /\ result s' = result s /\
  ((idx s < 13)%nat /\ arab s < nth (idx s) liczbyArab 0 /\
   idx s' = S (idx s) \/
   (13 <= idx s)%nat /\ arab s <> 0 /\ idx s' = 0%nat).

(** What holds of the loop variables from the moment the [for] has been
    entered: the remaining amount is not negative and lies below the table
    entry that the [for] has just left behind. *)
Definition in_pass (s : state) : Prop :=
  0 <= arab s /\ (idx s <= 13)%nat /\
  forall j, idx s = S j -> arab s < nth j liczbyArab 0.

(** The uppercased string is not what [arab2rzym] returns for the sum that
    the scan of [rzym2arab] computes from it. *)
Definition non_canonical (s : string) : Prop :=
  arab2rzym (sum_loop (upper s) 0) <> Ret (upper s).

(** [p] on each of [1 .. k]. *)
Fixpoint forall_upto (k : nat) (p : Z -> bool) : bool :=
  match k with
  | O => true
  | S k' => p (Z.of_nat k) && forall_upto k' p
  end.

(** Encoding [n] and decoding the outcome gives [n] back. *)
Definition roundtrip_ok (n : Z) : bool :=
  match arab2rzym n with
  | Ret s =>
      match rzym2arab s with
      | Ret m => m =? n
      | _ => false
      end
  | _ => false
  end.

(** ** Vocabulary of the greedy decomposition *)

(** The glyphs of the table entries [js], one after the other. *)
Definition entries_text (js : list nat) : string :=
  fold_right append "" (map (fun j => nth j liczbyRzym "") js).

(** The sum of the values of the table entries [js]. *)
Definition entries_value (js : list nat) : Z :=
  fold_right Z.add 0 (map (fun j => nth j liczbyArab 0) js).

(** Each entry was the largest that fitted: from any entry [S j] on, what
    follows (with [rest] still to be encoded) stays below the value of the
    entry [j] just before it in the table. *)
Definition greedy (js : list nat) (rest : Z) : Prop :=
  forall l1 j l2,
    js = (l1 ++ S j :: l2)%list ->
    entries_value (S j :: l2) + rest < nth j liczbyArab 0.

(** The loop variables [st] when the entries [js] have been taken off [n]. *)
Definition encodes (n : Z) (st : state) (js : list nat) : Prop :=
  result st = entries_text js /\
  n = arab st + entries_value js /\
  Forall (fun j => (j <= idx st)%nat /\ (j < 13)%nat) js /\
  StronglySorted le js /\
  greedy js (arab st).

(** The same glyph four times in a row somewhere in [s]. *)
Fixpoint has_run4 (s : string) : bool :=
  match s with
  | EmptyString => false
  | String a r =>
      match r with
      | String b (String c (String d _)) =>
          Ascii.eqb a b && Ascii.eqb b c && Ascii.eqb c d
      | _ => false
      end || has_run4 r
  end.

(** The encoding of [n] has at most 15 glyphs. *)
Definition short_ok (n : Z) : bool :=
  match arab2rzym n with
  | Ret s => (String.length s <=? 15)%nat
  | _ => false
  end.

(** The encoding of [n] repeats no glyph four times in a row. *)
Definition run4_free_ok (n : Z) : bool :=
  match arab2rzym n with
  | Ret s => negb (has_run4 s)
  | _ => false
  end.

(** ** The command line of the converter (Cpp/lista_2/main.cpp) *)

(** The exceptions of <stdexcept> that [std::stoi] throws. *)
Inductive std_exception : Type :=
| invalid_argument
| out_of_range.

(** [isspace] of <cctype> in the "C" locale: space and the controls
    \t \n \v \f \r. *)
Definition isspace (c : ascii) : bool :=
  ((code c =? 32) || ((9 <=? code c) && (code c <=? 13)))%N.

Fixpoint skip_space (s : string) : string :=
  match s with
  | EmptyString => EmptyString
  | String c rest => if isspace c then skip_space rest else s
  end.

(** The decimal digits at the head of [s], read on top of [acc]. *)
Fixpoint scan_digits (s : string) (acc : Z) : Z :=
  match s with
  | EmptyString => acc
  | String c rest =>
      if isdigit c
      then scan_digits rest (10 * acc + Z.of_N (code c - 48))
      else acc
  end.

Definition starts_with_digit (s : string) : bool :=
  match s with
  | EmptyString => false
  | String c _ => isdigit c
  end.

(** [std::stoi(str)] (base 10, no position asked for): white space is
    skipped, one sign is accepted, the digits that follow are read and what
    comes after them is ignored; no digit at all is an [invalid_argument],
    a value that does not fit an [int] is an [out_of_range]. *)
Definition stoi (str : string) : std_exception + Z :=
  let s := skip_space str in
  let negative :=
    match s with
    | String c _ => Ascii.eqb c "-"
    | EmptyString => false
    end in
  let s :=
    match s with
    | String c rest => if Ascii.eqb c "-" || Ascii.eqb c "+" then rest else s
    | EmptyString => s
    end in
  if negb (starts_with_digit s) then inl invalid_argument
  else
    let v := scan_digits s 0 in
    let v := if negative then - v else v in
    if (v <? -2147483648) || (2147483647 <? v) then inl out_of_range
    else inr v.

(** What [main] writes for one argument. *)
Inductive line : Type :=
| RzymLine (input : string) (result : Z)  (* printf("%s -> %i\n", ...) *)
| ArabLine (arab : Z) (result : string)   (* printf("%i -> %s\n", ...) *)
| ErrorLine (message : string).           (* cout << "Error: " << e.message *)

(** How the handling of one argument ends: a line was written (by the
    [try] block or by its [catch (ArabRzymException e)]), or an exception
    of another type left the [try] statement. *)
Inductive handled : Type :=
| Printed (l : line)
| Uncaught (e : std_exception)
| Unfinished.

(** The body of the [for] of [main] for the argument [arg]. *)
Definition main_body (arg : string) : handled :=
  let input := upper arg in
  if isValidRzym input then
    match rzym2arab input with
    | Ret result => Printed (RzymLine input result)
    | Throw e => Printed (ErrorLine (message e))
    | OutOfFuel => Unfinished
    end
  else if isValidArab input then
    match stoi input with
    | inl e => Uncaught e
    | inr arab =>
        match arab2rzym arab with
        | Ret result => Printed (ArabLine arab result)
        | Throw e => Printed (ErrorLine (message e))
        | OutOfFuel => Unfinished
        end
    end
  else Printed (ErrorLine ("Nieprawidłowa dana: " ++ input)).

(** How [main] ends. *)
Inductive ending : Type :=
| Return0
| TerminateArabRzym (message : string)  (* thrown outside every try *)
| TerminateStd (e : std_exception)      (* not caught by the catch clause *)
| MainUnfinished.

(** The [for] over [argv[1]], ..., [argv[argc - 1]]: the lines written and
    the way the loop ends. *)
Fixpoint main_loop (args : list string) : list line * ending :=
  match args with
  | [] => ([], Return0)
  | arg :: rest =>
      match main_body arg with
      | Printed l => let (ls, e) := main_loop rest in (l :: ls, e)
      | Uncaught e => ([], TerminateStd e)
      | Unfinished => ([], MainUnfinished)
      end
  end.

(** [main] on the arguments after the program name. *)
Definition main (args : list string) : list line * ending :=
  if (Nat.ltb (List.length args + 1) 2)
  then ([], TerminateArabRzym
              "Napisz liczbę arabską lub rzymską jako argument.")
  else main_loop args.

(** The largest [int]. *)
Definition INT_MAX : Z := 2147483647.

(** A decimal numeral too large for an [int]. *)
Definition overflows (arg : string) : Prop :=
  arg <> "" /\ isValidArab arg = true /\ INT_MAX < scan_digits arg 0.

(** ** A row of Pascal's triangle (WierszTrojkataPascala.cpp, lista_1)

    The object is its two fields.  [new] is taken to succeed: a row number
    for which the memory or the stack does not suffice is outside the
    model. *)

(** The two exceptions the class throws, with the number that
    [to_string] puts in front of the text of [what()]. *)
Inductive WierszException : Type :=
| NieprawidlowyNumerWiersza (n : Z)
    (* invalid_argument(to_string(n) + " - nieprawidlowy numer wiersza") *)
| LiczbaSpozaZakresu (m : Z).
    (* out_of_range(to_string(m) + " - liczba spoza zakresu") *)

Record WierszTrojkataPascala : Type := mkWiersz {
  tablica : list Z;
  size : Z
}.

(** The contents of [tablica] after [obliczenieNtegoWiersza(n)].  For
    [n >= 2] the source builds the object [poprzedni_wiersz(n - 1)], whose
    constructor runs this function for [n - 1], and fills the cells
    [0 .. n] from it. *)
Fixpoint obliczenieNtegoWiersza (n : nat) : list Z :=
  match n with
  | O => [1]
  | S n' =>
      match n' with
      | O => [1; 1]
      | S _ =>
          let poprzedni_wiersz := obliczenieNtegoWiersza n' in
          map (fun i =>
                 if Nat.eqb i 0 || Nat.eqb i n then 1
                 else wrap_int (nth (i - 1) poprzedni_wiersz 0 +
                                nth i poprzedni_wiersz 0))
              (seq 0 (S n))
      end
  end.

(** The constructor [WierszTrojkataPascala(int n)]. *)
Definition new_WierszTrojkataPascala (n : Z)
  : WierszException + WierszTrojkataPascala :=
  if n <? 0 then inl (NieprawidlowyNumerWiersza n)
  else inr (mkWiersz (obliczenieNtegoWiersza (Z.to_nat n)) (wrap_int (n + 1))).

Definition MtyElementWiersza (w : WierszTrojkataPascala) (m : Z)
  : WierszException + Z :=
  if (m <? 0) || (m >=? size w) then inl (LiczbaSpozaZakresu m)
  else inr (nth (Z.to_nat m) (tablica w) 0).

(** [n!]. *)
Fixpoint factorial (n : nat) : Z :=
  match n with
  | O => 1
  | S k => Z.of_nat n * factorial k
  end.

Definition Zfact (k : Z) : Z := factorial (Z.to_nat k).

(** Pascal's rule, the reference the rows are compared with. *)
Fixpoint binom (n m : nat) : Z :=
  match n, m with
  | _, O => 1
  | O, S _ => 0
  | S n', S m' => binom n' m' + binom n' m
  end.

(** [n! / (m! (n - m)!)] fits an [int], for every [m <= n] and every row
    up to [n]. *)
Fixpoint rows_fit (n : nat) : bool :=
  forallb (fun m => factorial n <=? INT_MAX * (factorial m * factorial (n - m)))
          (seq 0 (S n)) &&
  match n with
  | O => true
  | S n' => rows_fit n'
  end.

(** ** Sanity checks of the embedding on concrete inputs *)

Example arab2rzym_1994 : arab2rzym 1994 = Ret "MCMXCIV".
Proof. reflexivity. Qed.

Example arab2rzym_3888 : arab2rzym 3888 = Ret "MMMDCCCLXXXVIII".
Proof. reflexivity. Qed.

Example rzym2arab_XLII : rzym2arab "xlii" = Ret 42.
Proof. reflexivity. Qed.

Example rzym2arab_VX : rzym2arab "VX" = Throw (InvalidRzym "VX").
Proof. reflexivity. Qed.

Example getArabic_CM : getArabic "CM" = 900.
Proof. reflexivity. Qed.

Example getRzym_40 : getRzym 40 = "XL".
Proof. reflexivity. Qed.

Example main_example :
  main ["mcmxciv"; "42"; "IIII"; "0"; "4x"; ""] =
  ([RzymLine "MCMXCIV" 1994; ArabLine 42 "XLII";
    ErrorLine (message (InvalidRzym "IIII")); ErrorLine (message OutOfRange);
    ErrorLine "Nieprawidłowa dana: 4X"; ErrorLine (message EmptyValue)],
   Return0).
Proof. reflexivity. Qed.

Example stoi_examples :
  stoi "  -12abc" = inr (-12) /\ stoi "abc" = inl invalid_argument /\
  stoi "2147483648" = inl out_of_range /\ stoi "-2147483648" = inr (-2147483648).
Proof. repeat split; reflexivity. Qed.

Example obliczenieNtegoWiersza_6 :
  obliczenieNtegoWiersza 6 = [1; 6; 15; 20; 15; 6; 1].
Proof. reflexivity. Qed.

(** ** Exceptions *)

Lemma append_inj_l (p s t : string) : p ++ s = p ++ t -> s = t.
Proof.
  induction p as [|c p IH]; cbn [append]; intros H; [exact H|].
  injection H as H. exact (IH H).
Qed.

(** The three messages tell the three throw sites apart, and an
    invalid-numeral message determines the string it was built from. *)
Lemma message_injective (e e' : ArabRzymException) :
  message e = message e' -> e = e'.
Proof.
  destruct e, e'; cbn [message]; intros H;
    try reflexivity; try discriminate.
  apply append_inj_l in H. congruence.
Qed.

(** ** The loop nest of [arab2rzym] *)

Lemma liczbyArab_pos (j : nat) : (j < 13)%nat -> 1 <= nth j liczbyArab 0.
Proof.
  intros Hj.
  do 13 (destruct j as [|j]; [simpl; lia|]).
  lia.
Qed.

(** Every transition is of one of the two kinds. *)
Lemma step_shape (s s' : state) :
  step s = Some s' -> subtracts s s' \/ moves s s'.
Proof.
  unfold step, subtracts, moves.
  destruct (idx s <? 13)%nat eqn:Hi.
  - apply Nat.ltb_lt in Hi.
    destruct (nth (idx s) liczbyArab 0 <=? arab s) eqn:Hv;
      intros [= <-]; cbn [arab idx result].
    + apply Z.leb_le in Hv. left. repeat split; auto.
    + apply Z.leb_gt in Hv. right. repeat split; auto.
  - apply Nat.ltb_ge in Hi.
    destruct (arab s =? 0) eqn:Ez; cbn [negb]; intros [= <-];
      cbn [arab idx result].
    apply Z.eqb_neq in Ez. right. repeat split; auto.
Qed.

Lemma step_None (s : state) :
  step s = None <-> (13 <= idx s)%nat /\ arab s = 0.
Proof.
  unfold step.
  destruct (idx s <? 13)%nat eqn:Hi.
  - apply Nat.ltb_lt in Hi.
    destruct (nth (idx s) liczbyArab 0 <=? arab s);
      (split; [discriminate | lia]).
  - apply Nat.ltb_ge in Hi.
    destruct (arab s =? 0) eqn:Ez; cbn [negb].
    + apply Z.eqb_eq in Ez. tauto.
    + apply Z.eqb_neq in Ez. split; [discriminate | tauto].
Qed.

Lemma subtracts_decreases (s s' : state) :
  subtracts s s' -> 0 <= arab s' < arab s.
Proof.
  intros (Hi & _ & Hle & -> & _).
  pose proof (liczbyArab_pos _ Hi). lia.
Qed.

(** After a whole pass of the [for] nothing remains: the last table entry
    is 1. *)
Lemma in_pass_exit (s : state) :
  in_pass s -> (13 <= idx s)%nat -> idx s = 13%nat /\ arab s = 0.
Proof.
  intros (H0 & Hi & Hb) Hge.
  assert (idx s = 13%nat) as E by lia.
  specialize (Hb 12%nat E). change (arab s < 1) in Hb. lia.
Qed.

Lemma step_in_pass (s s' : state) :
  in_pass s -> step s = Some s' -> in_pass s'.
Proof.
  intros Hinv Hs.
  destruct (step_shape _ _ Hs)
    as [Hsub | (Ha & _ & [(Hlt & Hv & Hi') | (Hge & Hnz & _)])].
  - pose proof (subtracts_decreases _ _ Hsub) as Hd.
    destruct Hinv as (H0 & Hi & Hb). destruct Hsub as (_ & Hidx & _).
    repeat split; [lia | lia |].
    intros j Hj. rewrite Hidx in Hj. specialize (Hb j Hj). lia.
  - destruct Hinv as (H0 & Hi & _).
    repeat split; [lia | lia |].
    intros j Hj. replace j with (idx s) by lia. lia.
  - destruct (in_pass_exit _ Hinv Hge). contradiction.
Qed.

(** The number of transitions still to come inside a pass is bounded by
    the remaining amount plus the table entries not yet visited. *)
Lemma step_measure (s s' : state) :
  in_pass s -> step s = Some s' ->
  (Z.to_nat (arab s') + (13 - idx s') < Z.to_nat (arab s) + (13 - idx s))%nat.
Proof.
  intros Hinv Hs.
  destruct (step_shape _ _ Hs)
    as [Hsub | (Ha & _ & [(Hlt & _ & Hi') | (Hge & Hnz & _)])].
  - pose proof (subtracts_decreases _ _ Hsub).
    destruct Hsub as (_ & -> & _). lia.
  - rewrite Ha, Hi'. lia.
  - destruct (in_pass_exit _ Hinv Hge). contradiction.
Qed.

(** Inside a pass the loop nest is left after at most
    [arab s + (13 - idx s)] transitions, with nothing remaining. *)
Lemma pass_halts (m : nat) :
  forall s, in_pass s ->
    (Z.to_nat (arab s) + (13 - idx s) <= m)%nat ->
    exists k final,
      (k <= m)%nat /\ iter_step k s = Some final /\
      step final = None /\ arab final = 0.
Proof.
  induction m as [|m IH]; intros s Hinv Hm;
    destruct (step s) as [s'|] eqn:Hs.
  - pose proof (step_measure _ _ Hinv Hs). lia.
  - exists 0%nat, s. apply step_None in Hs as Hz.
    repeat split; auto. apply Hz.
  - pose proof (step_measure _ _ Hinv Hs) as Hlt.
    destruct (IH s' (step_in_pass _ _ Hinv Hs))
      as (k & final & Hk & Hit & Hst & Ha); [lia|].
    exists (S k), final. repeat split; auto; [lia|].
    cbn [iter_step]. rewrite Hs. exact Hit.
  - exists 0%nat, s. apply step_None in Hs as Hz.
    repeat split; auto; [lia | apply Hz].
Qed.

(** [run] finds the state that [iter_step] reaches when the budget covers
    the transitions. *)
Lemma run_iter_step (k : nat) :
  forall fuel s final,
    iter_step k s = Some final -> step final = None -> (k <= fuel)%nat ->
    run fuel s = Some final.
Proof.
  induction k as [|k IH]; intros fuel s final Hit Hst Hk.
  - injection Hit as ->. destruct fuel; simpl; rewrite Hst; reflexivity.
  - simpl in Hit. destruct (step s) as [s'|] eqn:Hs; [|discriminate].
    destruct fuel as [|fuel]; [lia|].
    simpl. rewrite Hs. apply IH; auto. lia.
Qed.

(** From a positive argument the loop nest is entered, passed once and
    left with nothing remaining. *)
Lemma loop_halts (n : Z) :
  0 < n ->
  exists k final,
    (k <= budget n)%nat /\ iter_step k (init n) = Some final /\
    step final = None /\ arab final = 0.
Proof.
  intros Hn.
  assert (step (init n) = Some (mkState n 0 "")) as H1.
  { unfold step, init. cbn [idx arab result].
    destruct (n =? 0) eqn:E; [apply Z.eqb_eq in E; lia | reflexivity]. }
  assert (in_pass (mkState n 0 "")) as Hinv.
  { repeat split; cbn [arab idx]; lia. }
  destruct (pass_halts (Z.to_nat n + 13) _ Hinv) as (k & final & Hk & Hit & Hst & Ha).
  { cbn [arab idx]. lia. }
  exists (S k), final. repeat split; auto.
  - unfold budget. lia.
  - simpl. rewrite H1. exact Hit.
Qed.

Lemma range_guard (n : Z) :
  (n <=? 0) || (n >? 4000) = true <-> n <= 0 \/ n > 4000.
Proof.
  rewrite orb_true_iff, Z.leb_le, Z.gtb_ltb, Z.ltb_lt. lia.
Qed.

Lemma range_guard_false (n : Z) :
  (n <=? 0) || (n >? 4000) = false <-> 0 < n <= 4000.
Proof.
  rewrite orb_false_iff, Z.leb_gt, Z.gtb_ltb, Z.ltb_ge. lia.
Qed.

Lemma arab2rzym_out_of_range (n : Z) :
  n <= 0 \/ n > 4000 -> arab2rzym n = Throw OutOfRange.
Proof.
  intros H. apply range_guard in H. unfold arab2rzym. rewrite H. reflexivity.
Qed.

Lemma arab2rzym_in_range (n : Z) :
  0 < n <= 4000 ->
  exists final,
    run (budget n) (init n) = Some final /\ arab final = 0 /\
    arab2rzym n = Ret (result final).
Proof.
  intros H.
  destruct (loop_halts n) as (k & final & Hk & Hit & Hst & Ha); [lia|].
  pose proof (run_iter_step _ _ _ _ Hit Hst Hk) as Hrun.
  exists final. repeat split; auto.
  unfold arab2rzym. apply range_guard_false in H. rewrite H, Hrun. reflexivity.
Qed.

Lemma arab2rzym_Ret_range (n : Z) (s : string) :
  arab2rzym n = Ret s -> 0 < n <= 4000.
Proof.
  intros H. apply range_guard_false.
  destruct ((n <=? 0) || (n >? 4000)) eqn:E; [|reflexivity].
  unfold arab2rzym in H. rewrite E in H. discriminate.
Qed.

(** The step budget is never what ends a call. *)
Lemma arab2rzym_not_OutOfFuel (n : Z) : arab2rzym n <> OutOfFuel.
Proof.
  destruct (Z_le_gt_dec n 0) as [|Hpos];
    [rewrite arab2rzym_out_of_range by lia; discriminate|].
  destruct (Z_le_gt_dec n 4000) as [Hle|];
    [|rewrite arab2rzym_out_of_range by lia; discriminate].
  destruct (arab2rzym_in_range n) as (final & _ & _ & E); [lia|].
  rewrite E. discriminate.
Qed.

Lemma rzym2arab_not_OutOfFuel (rzym : string) : rzym2arab rzym <> OutOfFuel.
Proof.
  unfold rzym2arab.
  destruct (String.eqb rzym ""); [discriminate|]. cbv zeta.
  destruct (negb (isValidRzym (upper rzym))); [discriminate|].
  pose proof (arab2rzym_not_OutOfFuel (sum_loop (upper rzym) 0)) as H.
  destruct (arab2rzym (sum_loop (upper rzym) 0)) as [enc| |];
    cbn [bind]; [|discriminate|contradiction].
  destruct (negb (String.eqb enc (upper rzym))); discriminate.
Qed.

(** ** C4: the range check of [arab2rzym] *)

(** C4. [arab2rzym n] throws the out-of-range exception exactly when
    [n <= 0] or [n > 4000]; for every [n] with [0 < n <= 4000] it returns a
    string; [arab2rzym 0] and [arab2rzym 4001] throw the out-of-range
    exception. *)
Theorem arab2rzym_range_error :
  (forall n, arab2rzym n = Throw OutOfRange <-> n <= 0 \/ n > 4000) /\
  (forall n, 0 < n <= 4000 <-> exists s, arab2rzym n = Ret s) /\
  arab2rzym 0 = Throw OutOfRange /\
  arab2rzym 4001 = Throw OutOfRange.
Proof.
  split; [|split; [|split; reflexivity]].
  - intros n. split.
    + intros H.
      destruct (Z_le_gt_dec n 0) as [|Hpos]; [left; assumption|].
      destruct (Z_le_gt_dec n 4000) as [Hle|]; [|right; assumption].
      destruct (arab2rzym_in_range n) as (final & _ & _ & E); [lia|].
      rewrite E in H. discriminate.
    + apply arab2rzym_out_of_range.
  - intros n. split.
    + intros H. destruct (arab2rzym_in_range n H) as (final & _ & _ & E).
      exists (result final). exact E.
    + intros [s E]. exact (arab2rzym_Ret_range _ _ E).
Qed.

(** ** C8: termination of the greedy loop *)

(** C8. For every [n] with [0 < n <= 4000] the loop nest of [arab2rzym],
    started with the remaining amount [n] and the empty result, is left
    after finitely many transitions (within the budget of [run]) in a
    state whose remaining amount is exactly [0], and [arab2rzym n] returns
    the result of that state.  On the way the remaining amount never
    grows: every transition either runs the body of the inner loop, which
    subtracts a table entry and leaves a strictly smaller amount that is
    not negative, or moves control and leaves the amount as it is. *)
Theorem arab2rzym_loop_terminates (n : Z) :
  0 < n <= 4000 ->
  exists k final,
    iter_step k (init n) = Some final /\
    step final = None /\
    arab final = 0 /\
    (k <= budget n)%nat /\
    (forall fuel, (k <= fuel)%nat -> run fuel (init n) = Some final) /\
    arab2rzym n = Ret (result final) /\
    (forall j s s',
        iter_step j (init n) = Some s -> step s = Some s' ->
        (subtracts s s' /\ 0 <= arab s' < arab s) \/
        (moves s s' /\ arab s' = arab s)).
Proof.
  intros Hn.
  destruct (loop_halts n) as (k & final & Hk & Hit & Hst & Ha); [lia|].
  exists k, final. repeat split; auto.
  - intros fuel Hf. exact (run_iter_step _ _ _ _ Hit Hst Hf).
  - unfold arab2rzym. apply range_guard_false in Hn. rewrite Hn.
    rewrite (run_iter_step _ _ _ _ Hit Hst Hk). reflexivity.
  - intros j s s' _ Hs.
    destruct (step_shape _ _ Hs) as [Hsub | Hmov].
    + left. split; [exact Hsub | exact (subtracts_decreases _ _ Hsub)].
    + right. split; [exact Hmov | apply Hmov].
Qed.

Lemma arab2rzym_loop_terminates_witness :
  0 < 1994 <= 4000 /\
  exists k final,
    iter_step k (init 1994) = Some final /\
    step final = None /\
    arab final = 0 /\
    (k <= budget 1994)%nat /\
    (forall fuel, (k <= fuel)%nat -> run fuel (init 1994) = Some final) /\
    arab2rzym 1994 = Ret (result final) /\
    (forall j s s',
        iter_step j (init 1994) = Some s -> step s = Some s' ->
        (subtracts s s' /\ 0 <= arab s' < arab s) \/
        (moves s s' /\ arab s' = arab s)).
Proof.
  split; [lia | apply (arab2rzym_loop_terminates 1994); lia].
Defined.

(** ** Round trips *)

Lemma forall_upto_spec (p : Z -> bool) (k : nat) :
  forall_upto k p = true ->
  forall n, 0 < n <= Z.of_nat k -> p n = true.
Proof.
  induction k as [|k IH]; intros H n Hn.
  - simpl in Hn. lia.
  - cbn [forall_upto] in H. apply andb_true_iff in H as [Hk Hrest].
    destruct (Z.eq_dec n (Z.of_nat (S k))) as [->|Hne]; [exact Hk|].
    apply IH; [exact Hrest | lia].
Qed.

(** The whole accepted range is checked by evaluation. *)
Lemma roundtrip_checked : forall_upto 4000 roundtrip_ok = true.
Proof. vm_compute. reflexivity. Qed.

Lemma roundtrip (n : Z) :
  0 < n <= 4000 ->
  exists s, arab2rzym n = Ret s /\ rzym2arab s = Ret n.
Proof.
  intros Hn.
  pose proof (forall_upto_spec _ _ roundtrip_checked n Hn) as H.
  unfold roundtrip_ok in H.
  destruct (arab2rzym n) as [s| |]; try discriminate.
  exists s. split; [reflexivity|].
  destruct (rzym2arab s) as [m| |]; try discriminate.
  apply Z.eqb_eq in H. congruence.
Qed.

(** C1. For every integer [n] with [1 <= n <= 3999], [arab2rzym n] returns
    a string and [rzym2arab] of that string returns [n]; no exception is
    thrown on the way. *)
Theorem rzym2arab_arab2rzym (n : Z) :
  1 <= n <= 3999 ->
  (s <- arab2rzym n ;; rzym2arab s) = Ret n.
Proof.
  intros Hn.
  destruct (roundtrip n) as (s & E1 & E2); [lia|].
  rewrite E1. exact E2.
Qed.

Lemma rzym2arab_arab2rzym_witness :
  1 <= 2024 <= 3999 /\ (s <- arab2rzym 2024 ;; rzym2arab s) = Ret 2024.
Proof.
  split; [lia | apply (rzym2arab_arab2rzym 2024); lia].
Defined.

(** C3. For every string [s] that [arab2rzym] returns on an argument it
    accepts, [rzym2arab s] returns a number and [arab2rzym] of that number
    returns [s]; no exception is thrown on the way. *)
Theorem arab2rzym_rzym2arab (n : Z) (s : string) :
  arab2rzym n = Ret s ->
  (m <- rzym2arab s ;; arab2rzym m) = Ret s.
Proof.
  intros E.
  destruct (roundtrip n (arab2rzym_Ret_range _ _ E)) as (s' & E1 & E2).
  assert (s' = s) as -> by congruence.
  rewrite E2. exact E.
Qed.

Lemma arab2rzym_rzym2arab_witness :
  arab2rzym 1994 = Ret "MCMXCIV" /\
  (m <- rzym2arab "MCMXCIV" ;; arab2rzym m) = Ret "MCMXCIV".
Proof.
  split; [reflexivity | apply (arab2rzym_rzym2arab 1994); reflexivity].
Defined.

(** C6. [rzym2arab "MCMXCIV"] returns 1994 and [arab2rzym 1994] returns
    "MCMXCIV". *)
Theorem MCMXCIV_1994 :
  rzym2arab "MCMXCIV" = Ret 1994 /\ arab2rzym 1994 = Ret "MCMXCIV".
Proof. split; reflexivity. Qed.

(** C10. At the upper end of the accepted range [arab2rzym 4000] returns
    "MMMM", [rzym2arab "MMMM"] returns 4000 without an exception, and so
    decoding the encoding of 4000 gives 4000 back. *)
Theorem MMMM_4000 :
  arab2rzym 4000 = Ret "MMMM" /\
  rzym2arab "MMMM" = Ret 4000 /\
  (s <- arab2rzym 4000 ;; rzym2arab s) = Ret 4000.
Proof. repeat split; reflexivity. Qed.

(** ** Characters and the classifiers *)

Lemma toupper_idempotent (c : ascii) : toupper (toupper c) = toupper c.
Proof. destruct c as [[] [] [] [] [] [] [] []]; reflexivity. Qed.

Lemma is_glyph_In (c : ascii) : is_glyph c = true <-> In c glyphs.
Proof.
  unfold is_glyph, glyphs.
  repeat
    match goal with
    | |- context [Ascii.eqb c ?g] =>
        destruct (Ascii.eqb_spec c g) as [->|];
        [split; [intros _; simpl; tauto | reflexivity]|]
    end.
  simpl. split; [discriminate | intuition congruence].
Qed.

Lemma is_glyph_not_In (c : ascii) : is_glyph c = false <-> ~ In c glyphs.
Proof.
  rewrite <- is_glyph_In. destruct (is_glyph c); split; congruence.
Qed.

Lemma isdigit_range (c : ascii) : isdigit c = true <-> (48 <= code c <= 57)%N.
Proof.
  unfold isdigit. rewrite andb_true_iff, !N.leb_le. tauto.
Qed.

Lemma chars_upper (s : string) : chars (upper s) = map toupper (chars s).
Proof.
  induction s as [|c s IH]; [reflexivity|].
  cbn [upper chars list_ascii_of_string map]. f_equal. exact IH.
Qed.

Lemma upper_idempotent (s : string) : upper (upper s) = upper s.
Proof.
  induction s as [|c s IH]; [reflexivity|].
  cbn [upper]. rewrite toupper_idempotent, IH. reflexivity.
Qed.

Lemma upper_empty (s : string) : String.eqb (upper s) "" = String.eqb s "".
Proof. destruct s; reflexivity. Qed.

Lemma isValidRzym_upper (s : string) : isValidRzym (upper s) = isValidRzym s.
Proof.
  induction s as [|c s IH]; [reflexivity|].
  cbn [upper isValidRzym]. rewrite toupper_idempotent, IH. reflexivity.
Qed.

Lemma isValidRzym_true_iff (input : string) :
  isValidRzym input = true <->
  Forall (fun c => In (toupper c) glyphs) (chars input).
Proof.
  induction input as [|c s IH].
  - split; [constructor | reflexivity].
  - cbn [isValidRzym chars list_ascii_of_string].
    rewrite Forall_cons_iff, <- IH, <- is_glyph_In.
    destruct (is_glyph (toupper c)); cbn [negb]; intuition congruence.
Qed.

Lemma isValidRzym_false_iff (input : string) :
  isValidRzym input = false <->
  Exists (fun c => ~ In (toupper c) glyphs) (chars input).
Proof.
  induction input as [|c s IH].
  - split; [discriminate | intros H; inversion H].
  - cbn [isValidRzym chars list_ascii_of_string].
    rewrite Exists_cons, <- IH, <- is_glyph_not_In.
    destruct (is_glyph (toupper c)); cbn [negb]; intuition congruence.
Qed.

Lemma isValidArab_true_iff (input : string) :
  isValidArab input = true <->
  Forall (fun c => (48 <= code c <= 57)%N) (chars input).
Proof.
  induction input as [|c s IH].
  - split; [constructor | reflexivity].
  - cbn [isValidArab chars list_ascii_of_string].
    rewrite Forall_cons_iff, <- IH, <- isdigit_range.
    destruct (isdigit c); cbn [negb]; intuition congruence.
Qed.

Lemma isValidArab_false_iff (input : string) :
  isValidArab input = false <->
  Exists (fun c => ~ (48 <= code c <= 57)%N) (chars input).
Proof.
  induction input as [|c s IH].
  - split; [discriminate | intros H; inversion H].
  - cbn [isValidArab chars list_ascii_of_string].
    rewrite Exists_cons, <- IH, <- isdigit_range.
    destruct (isdigit c); cbn [negb]; intuition congruence.
Qed.

(** C7. [isValidRzym] and [isValidArab] give an answer on every string:
    [true] exactly when every character is, after [toupper], one of the
    seven glyphs (for [isValidArab]: is a decimal digit), [false] exactly
    when some character is not.  Both answer [true] on the empty string;
    [isValidRzym "XYZ"] and [isValidArab "12a"] are [false]. *)
Theorem classifiers_total :
  (forall input,
      (isValidRzym input = true <->
       Forall (fun c => In (toupper c) glyphs) (chars input)) /\
      (isValidRzym input = false <->
       Exists (fun c => ~ In (toupper c) glyphs) (chars input))) /\
  (forall input,
      (isValidArab input = true <->
       Forall (fun c => (48 <= code c <= 57)%N) (chars input)) /\
      (isValidArab input = false <->
       Exists (fun c => ~ (48 <= code c <= 57)%N) (chars input))) /\
  isValidRzym "" = true /\
  isValidArab "" = true /\
  isValidRzym "XYZ" = false /\
  isValidArab "12a" = false.
Proof.
  split; [|split; [|repeat split; reflexivity]].
  - intros input. split;
      [apply isValidRzym_true_iff | apply isValidRzym_false_iff].
  - intros input. split;
      [apply isValidArab_true_iff | apply isValidArab_false_iff].
Qed.

(** ** Case of the input *)

Lemma rzym2arab_upper (s : string) : rzym2arab (upper s) = rzym2arab s.
Proof.
  unfold rzym2arab. rewrite upper_empty, upper_idempotent. reflexivity.
Qed.

(** C9. [rzym2arab] and [isValidRzym] do not depend on the letter case of
    the input: on every string [s], [rzym2arab s] has the outcome of
    [rzym2arab (upper s)] (the same number returned, or the same exception
    thrown) and [isValidRzym s = isValidRzym (upper s)];
    [rzym2arab "mcmxciv"] returns 1994. *)
Theorem case_invariant :
  (forall s, rzym2arab s = rzym2arab (upper s)) /\
  (forall s, isValidRzym s = isValidRzym (upper s)) /\
  rzym2arab "mcmxciv" = Ret 1994.
Proof.
  split; [|split].
  - intros s. symmetry. apply rzym2arab_upper.
  - intros s. symmetry. apply isValidRzym_upper.
  - reflexivity.
Qed.

(** ** Rejected inputs *)

Lemma rzym2arab_invalid_character (s : string) :
  s <> "" ->
  Exists (fun c => ~ In c glyphs) (chars (upper s)) ->
  rzym2arab s = Throw (InvalidRzym (upper s)).
Proof.
  intros Hne Hex.
  assert (isValidRzym (upper s) = false) as Hv.
  { rewrite isValidRzym_upper. apply isValidRzym_false_iff.
    rewrite chars_upper in Hex.
    exact (proj1 (Exists_map toupper (fun c => ~ In c glyphs) _) Hex). }
  unfold rzym2arab.
  destruct (String.eqb_spec s ""); [contradiction|].
  cbv zeta. rewrite Hv. reflexivity.
Qed.

(** C5. [rzym2arab ""] throws the empty-value exception.  On every
    non-empty string that, after uppercasing, has a character outside
    {I,V,X,L,C,D,M}, [rzym2arab] throws the invalid-numeral exception of
    the character check, which carries the uppercased input: the outcome
    is fixed by that check alone, the summing scan and the re-encoding
    have no part in it.  [rzym2arab "abc"] throws it; so does
    [rzym2arab "ab"], where the re-encoding of the sum 0 would have thrown
    the out-of-range exception instead. *)
Theorem rzym2arab_rejects_empty_and_illegal :
  rzym2arab "" = Throw EmptyValue /\
  (forall s,
      s <> "" ->
      Exists (fun c => ~ In c glyphs) (chars (upper s)) ->
      rzym2arab s = Throw (InvalidRzym (upper s))) /\
  rzym2arab "abc" = Throw (InvalidRzym "ABC") /\
  rzym2arab "ab" = Throw (InvalidRzym "AB") /\
  arab2rzym (sum_loop (upper "ab") 0) = Throw OutOfRange.
Proof.
  split; [reflexivity|split; [|repeat split; reflexivity]].
  exact rzym2arab_invalid_character.
Qed.

Lemma rzym2arab_rejects_empty_and_illegal_witness :
  "12" <> "" /\
  Exists (fun c => ~ In c glyphs) (chars (upper "12")) /\
  rzym2arab "12" = Throw (InvalidRzym (upper "12")).
Proof.
  assert ("12" <> "") as H1 by discriminate.
  assert (Exists (fun c => ~ In c glyphs) (chars (upper "12"))) as H2.
  { apply Exists_cons_hd. simpl. intuition discriminate. }
  split; [exact H1 | split; [exact H2|]].
  exact (proj1 (proj2 rzym2arab_rejects_empty_and_illegal) "12" H1 H2).
Defined.

(** ** Strings that are not the encoding of their sum *)

Lemma rzym2arab_valid (s : string) :
  s <> "" -> isValidRzym s = true ->
  rzym2arab s =
  (encoded <- arab2rzym (sum_loop (upper s) 0) ;;
   if negb (String.eqb encoded (upper s)) then Throw (InvalidRzym (upper s))
   else Ret (sum_loop (upper s) 0)).
Proof.
  intros Hne Hv. unfold rzym2arab.
  destruct (String.eqb_spec s ""); [contradiction|].
  cbv zeta. rewrite isValidRzym_upper, Hv. reflexivity.
Qed.

(** [rzym2arab] returns on exactly the strings that [arab2rzym] returns,
    in either letter case, and gives the number they encode. *)
Lemma rzym2arab_Ret_iff (s : string) (n : Z) :
  rzym2arab s = Ret n <-> arab2rzym n = Ret (upper s).
Proof.
  split.
  - unfold rzym2arab. destruct (String.eqb s ""); [discriminate|].
    cbv zeta. destruct (negb (isValidRzym (upper s))); [discriminate|].
    destruct (arab2rzym (sum_loop (upper s) 0)) as [enc| |] eqn:E;
      cbn [bind]; try discriminate.
    destruct (String.eqb_spec enc (upper s)) as [->|]; cbn [negb];
      [|discriminate].
    intros [= <-]. exact E.
  - intros E.
    destruct (roundtrip n (arab2rzym_Ret_range _ _ E)) as (s' & E1 & E2).
    rewrite <- rzym2arab_upper. congruence.
Qed.

(** C2, as the code has it. For every non-empty string of valid Roman
    glyphs (in either letter case) whose uppercased form is not the
    encoding of its left-to-right sum, [rzym2arab] throws: the
    invalid-numeral exception carrying the uppercased input when the sum
    lies in (0, 4000], and the out-of-range exception of the re-encoding
    [arab2rzym] when the sum lies outside (0, 4000].  In particular
    [rzym2arab "IIII"] throws the invalid-numeral exception and does not
    return 4. *)
Theorem rzym2arab_rejects_non_canonical :
  (forall s,
      s <> "" -> isValidRzym s = true -> non_canonical s ->
      (0 < sum_loop (upper s) 0 <= 4000 ->
       rzym2arab s = Throw (InvalidRzym (upper s))) /\
      (~ 0 < sum_loop (upper s) 0 <= 4000 ->
       rzym2arab s = Throw OutOfRange)) /\
  rzym2arab "IIII" = Throw (InvalidRzym "IIII").
Proof.
  split; [|reflexivity].
  intros s Hne Hv Hnc. rewrite (rzym2arab_valid s Hne Hv).
  unfold non_canonical in Hnc. split; intros Hr.
  - destruct (arab2rzym_in_range _ Hr) as (final & _ & _ & E).
    rewrite E in *. cbn [bind].
    destruct (String.eqb_spec (result final) (upper s)) as [Heq|];
      [|reflexivity].
    rewrite Heq in Hnc. contradiction.
  - rewrite arab2rzym_out_of_range by lia. reflexivity.
Qed.

Lemma rzym2arab_rejects_non_canonical_witness :
  "IIII" <> "" /\ isValidRzym "IIII" = true /\ non_canonical "IIII" /\
  0 < sum_loop (upper "IIII") 0 <= 4000 /\
  rzym2arab "IIII" = Throw (InvalidRzym (upper "IIII")).
Proof.
  assert ("IIII" <> "") as H1 by discriminate.
  assert (isValidRzym "IIII" = true) as H2 by reflexivity.
  assert (non_canonical "IIII") as H3 by (vm_compute; discriminate).
  assert (0 < sum_loop (upper "IIII") 0 <= 4000) as H4
    by (vm_compute; split; [reflexivity | discriminate]).
  split; [exact H1 | split; [exact H2 | split; [exact H3 | split; [exact H4|]]]].
  exact (proj1 (proj1 rzym2arab_rejects_non_canonical "IIII" H1 H2 H3) H4).
Defined.

(** The claim C2 as it is written fails at "MMMMMIIII": the string is not
    empty, has only valid glyphs, sums to 5004 and is not the encoding of
    5004 (neither what [arab2rzym] returns, which throws, nor what the
    greedy loop alone would build, "MMMMMIV"); [rzym2arab] throws the
    out-of-range exception of the re-encoding, not the invalid-numeral
    one. *)
Lemma MMMMMIIII_out_of_range :
  ("MMMMMIIII" <> "" /\ isValidRzym "MMMMMIIII" = true /\
   non_canonical "MMMMMIIII") /\
  sum_loop (upper "MMMMMIIII") 0 = 5004 /\
  run (budget 5004) (init 5004) = Some (mkState 0 13 "MMMMMIV") /\
  rzym2arab "MMMMMIIII" = Throw OutOfRange /\
  ~ (forall s,
        s <> "" -> isValidRzym s = true -> non_canonical s ->
        exists rzym, rzym2arab s = Throw (InvalidRzym rzym)).
Proof.
  assert (non_canonical "MMMMMIIII") as Hnc by (vm_compute; discriminate).
  repeat split; try discriminate; try reflexivity; try exact Hnc.
  intros H.
  destruct (H "MMMMMIIII") as [rzym E];
    [discriminate | reflexivity | exact Hnc | discriminate].
Qed.

(** ** The table lookups *)

Lemma getArabic_hit (j : nat) :
  (j < 13)%nat -> getArabic (nth j liczbyRzym "") = nth j liczbyArab 0.
Proof.
  intros Hj.
  do 13 (destruct j as [|j]; [reflexivity|]).
  lia.
Qed.

Lemma getRzym_hit (j : nat) :
  (j < 13)%nat -> getRzym (nth j liczbyArab 0) = nth j liczbyRzym "".
Proof.
  intros Hj.
  do 13 (destruct j as [|j]; [reflexivity|]).
  lia.
Qed.

Lemma getArabic_miss (rzymDigit : string) :
  ~ In rzymDigit liczbyRzym -> getArabic rzymDigit = 0.
Proof.
  intros Hn. unfold getArabic. cbn [seq fold_left nth liczbyRzym liczbyArab].
  repeat
    match goal with
    | |- context [String.eqb ?g rzymDigit] =>
        destruct (String.eqb_spec g rzymDigit) as [E|_];
        [exfalso; apply Hn; rewrite <- E; simpl; tauto|]
    end.
  reflexivity.
Qed.

Lemma getRzym_miss (arabicDigit : Z) :
  ~ In arabicDigit liczbyArab -> getRzym arabicDigit = "".
Proof.
  intros Hn. unfold getRzym. cbn [seq fold_left nth liczbyRzym liczbyArab].
  repeat
    match goal with
    | |- context [Z.eqb ?v arabicDigit] =>
        destruct (Z.eqb_spec v arabicDigit) as [E|_];
        [exfalso; apply Hn; rewrite <- E; simpl; tauto|]
    end.
  reflexivity.
Qed.

Lemma In_liczbyRzym (g : string) :
  In g liczbyRzym -> exists j, (j < 13)%nat /\ nth j liczbyRzym "" = g.
Proof.
  intros H. destruct (In_nth _ _ "" H) as (j & Hj & E).
  exists j. split; [exact Hj | exact E].
Qed.

Lemma In_liczbyArab (v : Z) :
  In v liczbyArab -> exists j, (j < 13)%nat /\ nth j liczbyArab 0 = v.
Proof.
  intros H. destruct (In_nth _ _ 0 H) as (j & Hj & E).
  exists j. split; [exact Hj | exact E].
Qed.

(** X1. [getArabic] gives each of the thirteen glyph strings of the table
    the value at the same position, and gives 0 exactly for the strings
    that are not in the table (the lookup is case sensitive: "iv" is not
    in it). *)
Theorem getArabic_lookup :
  (forall j, (j < 13)%nat ->
             getArabic (nth j liczbyRzym "") = nth j liczbyArab 0) /\
  (forall rzymDigit, getArabic rzymDigit = 0 <-> ~ In rzymDigit liczbyRzym) /\
  getArabic "iv" = 0.
Proof.
  split; [exact getArabic_hit | split; [|reflexivity]].
  intros g. split; [|apply getArabic_miss].
  intros H0 Hin. destruct (In_liczbyRzym _ Hin) as (j & Hj & <-).
  rewrite (getArabic_hit j Hj) in H0.
  pose proof (liczbyArab_pos j Hj). lia.
Qed.

Lemma getArabic_lookup_witness :
  (12 < 13)%nat /\ getArabic (nth 12 liczbyRzym "") = nth 12 liczbyArab 0.
Proof.
  assert (12 < 13)%nat as H by lia.
  split; [exact H | exact (proj1 getArabic_lookup 12%nat H)].
Defined.

(** X2. [getRzym] gives each of the thirteen values of the table the glyph
    string at the same position, and gives the empty string exactly for
    the numbers that are not in the table. *)
Theorem getRzym_lookup :
  (forall j, (j < 13)%nat ->
             getRzym (nth j liczbyArab 0) = nth j liczbyRzym "") /\
  (forall arabicDigit,
      getRzym arabicDigit = "" <-> ~ In arabicDigit liczbyArab).
Proof.
  split; [exact getRzym_hit|].
  intros v. split; [|apply getRzym_miss].
  intros H0 Hin. destruct (In_liczbyArab _ Hin) as (j & Hj & <-).
  rewrite (getRzym_hit j Hj) in H0.
  revert H0. do 13 (destruct j as [|j]; [discriminate|]). lia.
Qed.

Lemma getRzym_lookup_witness :
  (3 < 13)%nat /\ getRzym (nth 3 liczbyArab 0) = nth 3 liczbyRzym "".
Proof.
  assert (3 < 13)%nat as H by lia.
  split; [exact H | exact (proj1 getRzym_lookup 3%nat H)].
Defined.

(** X3. On the table the two lookups are inverse to each other:
    [getRzym (getArabic g) = g] for every glyph string [g] of the table
    and [getArabic (getRzym v) = v] for every value [v] of the table. *)
Theorem getRzym_getArabic_inverse :
  (forall g, In g liczbyRzym -> getRzym (getArabic g) = g) /\
  (forall v, In v liczbyArab -> getArabic (getRzym v) = v).
Proof.
  split.
  - intros g Hin. destruct (In_liczbyRzym _ Hin) as (j & Hj & <-).
    rewrite (getArabic_hit j Hj). apply getRzym_hit. exact Hj.
  - intros v Hin. destruct (In_liczbyArab _ Hin) as (j & Hj & <-).
    rewrite (getRzym_hit j Hj). apply getArabic_hit. exact Hj.
Qed.

Lemma getRzym_getArabic_inverse_witness :
  In "XC" liczbyRzym /\ getRzym (getArabic "XC") = "XC".
Proof.
  assert (In "XC" liczbyRzym) as H by (simpl; tauto).
  split; [exact H | exact (proj1 getRzym_getArabic_inverse "XC" H)].
Defined.

(** ** The greedy decomposition built by [arab2rzym] *)

Lemma append_nil_r (s : string) : s ++ "" = s.
Proof. induction s as [|c s IH]; [reflexivity | cbn [append]; now rewrite IH]. Qed.

Lemma append_assoc (s t u : string) : (s ++ t) ++ u = s ++ (t ++ u).
Proof. induction s as [|c s IH]; [reflexivity | cbn [append]; now rewrite IH]. Qed.

Lemma entries_text_snoc (js : list nat) (i : nat) :
  entries_text (js ++ [i]) = entries_text js ++ nth i liczbyRzym "".
Proof.
  unfold entries_text. induction js as [|j js IH].
  - cbn [app map fold_right]. now rewrite append_nil_r.
  - cbn [app map fold_right]. rewrite IH. now rewrite append_assoc.
Qed.

Lemma entries_value_app (js ks : list nat) :
  entries_value (js ++ ks) = entries_value js + entries_value ks.
Proof.
  unfold entries_value. induction js as [|j js IH].
  - cbn [app map fold_right]. lia.
  - cbn [app map fold_right]. rewrite IH. lia.
Qed.

Lemma entries_value_single (i : nat) : entries_value [i] = nth i liczbyArab 0.
Proof. unfold entries_value. cbn [map fold_right]. lia. Qed.

Lemma StronglySorted_snoc (js : list nat) (i : nat) :
  StronglySorted le js -> Forall (fun j => (j <= i)%nat) js ->
  StronglySorted le (js ++ [i]).
Proof.
  induction 1 as [|j js Hs IH Hall]; intros Hle.
  - repeat constructor.
  - apply Forall_cons_iff in Hle as [Hj Hle].
    cbn [app]. constructor; [exact (IH Hle)|].
    apply Forall_app. split; [exact Hall | repeat constructor; exact Hj].
Qed.

(** Where an entry [S j] sits in [js ++ [i]]: at the end, or inside [js]. *)
Lemma snoc_split (js l1 l2 : list nat) (i j : nat) :
  (js ++ [i] = l1 ++ S j :: l2)%list ->
  (l2 = [] /\ js = l1 /\ i = S j) \/
  (exists l2', l2 = l2' ++ [i] /\ js = l1 ++ S j :: l2')%list.
Proof.
  intros H. destruct l2 as [|x l2] using rev_ind.
  - left. change (l1 ++ [S j])%list with (l1 ++ [S j])%list in H.
    apply app_inj_tail in H as [-> ->]. auto.
  - right. exists l2.
    change (l1 ++ S j :: l2 ++ [x])%list
      with (l1 ++ (S j :: l2) ++ [x])%list in H.
    rewrite app_assoc in H. apply app_inj_tail in H as [-> ->]. auto.
Qed.

Lemma step_encodes (n : Z) (st st' : state) (js : list nat) :
  in_pass st -> encodes n st js -> step st = Some st' ->
  exists js', encodes n st' js'.
Proof.
  intros Hinv (Ht & Hv & Hall & Hs & Hg) Hst.
  destruct (step_shape _ _ Hst)
    as [(Hlt & Hi & Hle & Ha & Hr) |
        (Ha & Hr & [(Hlt & _ & Hi') | (Hge & Hnz & _)])].
  - exists (js ++ [idx st])%list. unfold encodes.
    rewrite Hr, Ha, Hi, Ht, entries_text_snoc, entries_value_app,
      entries_value_single.
    split; [reflexivity|]. split; [lia|]. split; [|split].
    + apply Forall_app. split; [exact Hall|].
      constructor; [split; [lia | exact Hlt] | constructor].
    + apply StronglySorted_snoc; [exact Hs|].
      eapply Forall_impl; [|exact Hall]. intros j [Hj _]. exact Hj.
    + intros l1 j l2 E.
      destruct (snoc_split _ _ _ _ _ E) as [(-> & -> & Ei) | (l2' & -> & ->)].
      * rewrite entries_value_single, <- Ei.
        destruct Hinv as (_ & _ & Hb). specialize (Hb j Ei). lia.
      * specialize (Hg l1 j l2' eq_refl).
        change (S j :: l2' ++ [idx st])%list
          with ((S j :: l2') ++ [idx st])%list.
        rewrite entries_value_app, entries_value_single. lia.
  - exists js. unfold encodes. rewrite Hr, Ha, Hi'.
    repeat split; auto.
    eapply Forall_impl; [|exact Hall]. intros j [Hj Hj']. split; lia.
  - destruct (in_pass_exit _ Hinv Hge). contradiction.
Qed.

Lemma iter_step_encodes (n : Z) (k : nat) :
  forall st st' js,
    in_pass st -> encodes n st js -> iter_step k st = Some st' ->
    exists js', encodes n st' js'.
Proof.
  induction k as [|k IH]; intros st st' js Hinv He Hit.
  - injection Hit as <-. exists js. exact He.
  - cbn [iter_step] in Hit. destruct (step st) as [st1|] eqn:Hs; [|discriminate].
    destruct (step_encodes _ _ _ _ Hinv He Hs) as [js1 He1].
    exact (IH _ _ _ (step_in_pass _ _ Hinv Hs) He1 Hit).
Qed.

Lemma run_Some (fuel : nat) :
  forall s final,
    run fuel s = Some final ->
    exists k, iter_step k s = Some final /\ step final = None.
Proof.
  induction fuel as [|fuel IH]; intros s final H; cbn [run] in H;
    destruct (step s) as [s'|] eqn:Hs.
  - discriminate.
  - injection H as <-. exists 0%nat. auto.
  - destruct (IH _ _ H) as (k & Hit & Hn).
    exists (S k). cbn [iter_step]. rewrite Hs. auto.
  - injection H as <-. exists 0%nat. auto.
Qed.

(** X4. What [arab2rzym] returns is the greedy decomposition of its
    argument over the table: the glyph strings of a sequence of table
    entries, taken in the order of the table (values never increasing),
    whose values add up to [n], each entry being the largest that fitted:
    what follows an entry [S j] (that entry included) is worth less than
    the entry [j] before it in the table. *)
Theorem arab2rzym_greedy (n : Z) (s : string) :
  arab2rzym n = Ret s ->
  exists js,
    s = entries_text js /\
    entries_value js = n /\
    Forall (fun j => (j < 13)%nat) js /\
    StronglySorted le js /\
    greedy js 0.
Proof.
  intros E. pose proof (arab2rzym_Ret_range _ _ E) as Hn.
  unfold arab2rzym in E.
  destruct ((n <=? 0) || (n >? 4000)); [discriminate|].
  destruct (run (budget n) (init n)) as [final|] eqn:Hrun; [|discriminate].
  injection E as <-.
  destruct (run_Some _ _ _ Hrun) as (k & Hit & Hnone).
  destruct k as [|k]; cbn [iter_step] in Hit.
  - injection Hit as <-. apply step_None in Hnone as [_ H0].
    cbn [init arab] in H0. lia.
  - assert (step (init n) = Some (mkState n 0 "")) as H1.
    { unfold step, init. cbn [idx arab result].
      destruct (n =? 0) eqn:Ez; [apply Z.eqb_eq in Ez; lia | reflexivity]. }
    rewrite H1 in Hit.
    assert (in_pass (mkState n 0 "")) as Hinv
        by (repeat split; cbn [arab idx]; lia).
    assert (encodes n (mkState n 0 "") []) as He.
    { unfold encodes, greedy. cbn [arab idx result].
      repeat split; try constructor; try (unfold entries_value; simpl; lia).
      intros l1 j l2 Hnil. destruct l1; discriminate. }
    destruct (iter_step_encodes _ _ _ _ _ Hinv He Hit)
      as (js & Ht & Hv & Hall & Hs & Hg).
    apply step_None in Hnone as [_ H0]. rewrite H0 in *.
    exists js. split; [exact Ht|]. split; [lia|]. split; [|split; assumption].
    eapply Forall_impl; [|exact Hall]. intros j [_ Hj]. exact Hj.
Qed.

Lemma arab2rzym_greedy_witness :
  arab2rzym 1994 = Ret "MCMXCIV" /\
  exists js,
    "MCMXCIV" = entries_text js /\
    entries_value js = 1994 /\
    Forall (fun j => (j < 13)%nat) js /\
    StronglySorted le js /\
    greedy js 0.
Proof.
  assert (arab2rzym 1994 = Ret "MCMXCIV") as H by reflexivity.
  split; [exact H | exact (arab2rzym_greedy 1994 "MCMXCIV" H)].
Defined.

(** ** The command line *)

Lemma digit_char (c : ascii) :
  isdigit c = true ->
  toupper c = c /\ is_glyph c = false /\ isspace c = false /\
  Ascii.eqb c "-" = false /\ Ascii.eqb c "+" = false.
Proof.
  destruct c as [[] [] [] [] [] [] [] []]; intros H;
    try discriminate H; repeat split; reflexivity.
Qed.

Lemma isdigit_toupper (c : ascii) : isdigit (toupper c) = isdigit c.
Proof. destruct c as [[] [] [] [] [] [] [] []]; reflexivity. Qed.

Lemma isValidArab_upper (s : string) : isValidArab (upper s) = isValidArab s.
Proof.
  induction s as [|c s IH]; [reflexivity|].
  cbn [upper isValidArab]. rewrite isdigit_toupper, IH. reflexivity.
Qed.

Lemma isValidArab_cons (c : ascii) (s : string) :
  isValidArab (String c s) = true -> isdigit c = true /\ isValidArab s = true.
Proof.
  cbn [isValidArab]. destruct (isdigit c); cbn [negb]; [auto | discriminate].
Qed.

Lemma digits_upper (d : string) : isValidArab d = true -> upper d = d.
Proof.
  induction d as [|c d IH]; [reflexivity|].
  intros H. apply isValidArab_cons in H as [Hc Hd].
  cbn [upper]. rewrite (IH Hd). destruct (digit_char c Hc) as [-> _].
  reflexivity.
Qed.

Lemma digits_not_rzym (d : string) :
  d <> "" -> isValidArab d = true -> isValidRzym d = false.
Proof.
  destruct d as [|c d]; [contradiction|]. intros _ H.
  apply isValidArab_cons in H as [Hc _].
  destruct (digit_char c Hc) as (Hu & Hg & _).
  cbn [isValidRzym]. rewrite Hu, Hg. reflexivity.
Qed.

Lemma scan_digits_nonneg (s : string) :
  forall acc, 0 <= acc -> 0 <= scan_digits s acc.
Proof.
  induction s as [|c s IH]; intros acc H; cbn [scan_digits]; [exact H|].
  destruct (isdigit c); [apply IH; lia | exact H].
Qed.

Lemma stoi_digits (d : string) :
  d <> "" -> isValidArab d = true ->
  stoi d = if INT_MAX <? scan_digits d 0 then inl out_of_range
           else inr (scan_digits d 0).
Proof.
  destruct d as [|c d]; [contradiction|]. intros _ H.
  pose proof (scan_digits_nonneg (String c d) 0 (Z.le_refl 0)) as Hv.
  apply isValidArab_cons in H as [Hc _].
  destruct (digit_char c Hc) as (_ & _ & Hs & Hm & Hp).
  unfold stoi. cbn [skip_space]. rewrite Hs. cbv zeta.
  rewrite Hm, Hp. cbn [orb starts_with_digit]. rewrite Hc. cbn [negb].
  unfold INT_MAX.
  destruct (scan_digits (String c d) 0 <? -2147483648) eqn:E;
    [apply Z.ltb_lt in E; lia | reflexivity].
Qed.

Lemma message_not_invalid_input (e : ArabRzymException) (input : string) :
  message e <> "Nieprawidłowa dana: " ++ input.
Proof. destruct e; cbn [message append]; discriminate. Qed.

Lemma main_body_digits (d : string) :
  d <> "" -> isValidArab d = true ->
  main_body d =
  match stoi d with
  | inl e => Uncaught e
  | inr arab =>
      match arab2rzym arab with
      | Ret result => Printed (ArabLine arab result)
      | Throw e => Printed (ErrorLine (message e))
      | OutOfFuel => Unfinished
      end
  end.
Proof.
  intros Hne Hd. unfold main_body. cbv zeta.
  rewrite (digits_upper d Hd), (digits_not_rzym d Hne Hd), Hd. reflexivity.
Qed.

(** X9. What [main] does with an argument that is a decimal numeral (a
    non-empty string of digits, leading zeros allowed) of value [v]:
    for [0 < v <= 4000] it writes the line "v -> numeral" with the numeral
    that [arab2rzym] returns; for [v = 0] and for [4000 < v <= INT_MAX] it
    writes the error line with the out-of-range message; for
    [v > INT_MAX] the [std::out_of_range] of [std::stoi] is not an
    [ArabRzymException], so no handler takes it. *)
Theorem main_body_decimal (d : string) :
  d <> "" -> isValidArab d = true ->
  (0 < scan_digits d 0 <= 4000 ->
   exists numeral,
     arab2rzym (scan_digits d 0) = Ret numeral /\
     main_body d = Printed (ArabLine (scan_digits d 0) numeral)) /\
  (scan_digits d 0 = 0 \/ 4000 < scan_digits d 0 <= INT_MAX ->
   main_body d = Printed (ErrorLine (message OutOfRange))) /\
  (INT_MAX < scan_digits d 0 -> main_body d = Uncaught out_of_range).
Proof.
  intros Hne Hd. rewrite (main_body_digits d Hne Hd), (stoi_digits d Hne Hd).
  unfold INT_MAX. split; [|split]; intros Hv.
  - destruct (2147483647 <? scan_digits d 0) eqn:E;
      [apply Z.ltb_lt in E; lia|].
    destruct (arab2rzym_in_range _ Hv) as (final & _ & _ & Er).
    exists (result final). rewrite Er. auto.
  - destruct (2147483647 <? scan_digits d 0) eqn:E;
      [apply Z.ltb_lt in E; lia|].
    rewrite arab2rzym_out_of_range by lia. reflexivity.
  - apply Z.ltb_lt in Hv. rewrite Hv. reflexivity.
Qed.

Lemma main_body_decimal_witness :
  "0042" <> "" /\ isValidArab "0042" = true /\
  0 < scan_digits "0042" 0 <= 4000 /\
  exists numeral,
    arab2rzym (scan_digits "0042" 0) = Ret numeral /\
    main_body "0042" = Printed (ArabLine (scan_digits "0042" 0) numeral).
Proof.
  assert ("0042" <> "") as H1 by discriminate.
  assert (isValidArab "0042" = true) as H2 by reflexivity.
  assert (0 < scan_digits "0042" 0 <= 4000) as H3
      by (vm_compute; split; [reflexivity | discriminate]).
  split; [exact H1 | split; [exact H2 | split; [exact H3|]]].
  exact (proj1 (main_body_decimal "0042" H1 H2) H3).
Defined.

(** The two ways the handling of an argument ends. *)
Lemma main_body_cases (arg : string) :
  (overflows arg /\ main_body arg = Uncaught out_of_range) \/
  (~ overflows arg /\ exists l, main_body arg = Printed l).
Proof.
  destruct (isValidRzym (upper arg)) eqn:Hr.
  - right. split.
    + intros (Hne & Hd & _).
      rewrite isValidRzym_upper, (digits_not_rzym arg Hne Hd) in Hr.
      discriminate.
    + unfold main_body. cbv zeta. rewrite Hr.
      pose proof (rzym2arab_not_OutOfFuel (upper arg)) as Hf.
      destruct (rzym2arab (upper arg)); [eexists; reflexivity ..|contradiction].
  - destruct (isValidArab (upper arg)) eqn:Ha.
    + rewrite isValidArab_upper in Ha.
      assert (arg <> "") as Hne by (intros ->; discriminate).
      rewrite (main_body_digits arg Hne Ha), (stoi_digits arg Hne Ha).
      destruct (INT_MAX <? scan_digits arg 0) eqn:E.
      * apply Z.ltb_lt in E. left. split; [|reflexivity].
        split; [exact Hne | split; [exact Ha | exact E]].
      * apply Z.ltb_ge in E. right. split; [intros (_ & _ & Hv); lia|].
        pose proof (arab2rzym_not_OutOfFuel (scan_digits arg 0)) as Hf.
        destruct (arab2rzym (scan_digits arg 0));
          [eexists; reflexivity ..|contradiction].
    + right. split.
      * intros (_ & Hd & _). rewrite isValidArab_upper in Ha. congruence.
      * unfold main_body. cbv zeta. rewrite Hr, Ha. eexists. reflexivity.
Qed.

(** X10. The handling of an argument never runs out of the step budget of
    the model, and an exception leaves the [try] statement of [main]
    uncaught in exactly one case: the argument is a decimal numeral
    greater than [INT_MAX], and the exception is the [std::out_of_range]
    of [std::stoi]. *)
Theorem main_body_uncaught (arg : string) :
  main_body arg <> Unfinished /\
  (forall e, main_body arg = Uncaught e <-> e = out_of_range /\ overflows arg).
Proof.
  destruct (main_body_cases arg) as [[Ho E] | [Hno [l E]]]; rewrite E.
  - split; [discriminate|].
    intros e. split.
    + intros [= <-]. split; [reflexivity | exact Ho].
    + intros [-> _]. reflexivity.
  - split; [discriminate|].
    intros e. split.
    + discriminate.
    + intros [_ Ho]. contradiction.
Qed.

(** X11. [main] answers an argument with the error line "Nieprawidlowa
    dana: " followed by the uppercased argument exactly when the argument
    is neither made of Roman glyphs only (in either letter case) nor of
    decimal digits only. *)
Theorem main_body_invalid_input (arg : string) :
  main_body arg = Printed (ErrorLine ("Nieprawidłowa dana: " ++ upper arg)) <->
  isValidRzym arg = false /\ isValidArab arg = false.
Proof.
  unfold main_body. cbv zeta.
  rewrite <- (isValidRzym_upper arg), <- (isValidArab_upper arg).
  destruct (isValidRzym (upper arg)).
  - split; [|intros [? _]; discriminate].
    destruct (rzym2arab (upper arg)); try discriminate.
    intros [= H]. destruct (message_not_invalid_input _ _ H).
  - destruct (isValidArab (upper arg)); [|tauto].
    split; [|intros [_ ?]; discriminate].
    destruct (stoi (upper arg)) as [e|v]; [discriminate|].
    destruct (arab2rzym v); try discriminate.
    intros [= H]. destruct (message_not_invalid_input _ _ H).
Qed.

(** ** What the converter accepts and returns *)

(** X5. [rzym2arab] returns [n] on exactly the strings that, uppercased,
    are what [arab2rzym n] returns; so it never returns a number outside
    (0, 4000]. *)
Theorem rzym2arab_accepts_exactly (s : string) (n : Z) :
  (rzym2arab s = Ret n <-> arab2rzym n = Ret (upper s)) /\
  (rzym2arab s = Ret n -> 0 < n <= 4000).
Proof.
  split; [apply rzym2arab_Ret_iff|].
  intros H. apply rzym2arab_Ret_iff in H.
  exact (arab2rzym_Ret_range _ _ H).
Qed.

Lemma rzym2arab_accepts_exactly_witness :
  rzym2arab "xlii" = Ret 42 /\ 0 < 42 <= 4000.
Proof.
  assert (rzym2arab "xlii" = Ret 42) as H by reflexivity.
  split; [exact H | exact (proj2 (rzym2arab_accepts_exactly "xlii" 42) H)].
Defined.

(** X6. [arab2rzym] is injective: two numbers with the same numeral are
    equal. *)
Theorem arab2rzym_injective (n m : Z) (s : string) :
  arab2rzym n = Ret s -> arab2rzym m = Ret s -> n = m.
Proof.
  intros Hn Hm.
  destruct (roundtrip n (arab2rzym_Ret_range _ _ Hn)) as (sn & En & Rn).
  destruct (roundtrip m (arab2rzym_Ret_range _ _ Hm)) as (sm & Em & Rm).
  assert (sn = s) as -> by congruence.
  assert (sm = s) as -> by congruence.
  congruence.
Qed.

Lemma arab2rzym_injective_witness :
  arab2rzym 1994 = Ret "MCMXCIV" /\ arab2rzym (997 * 2) = Ret "MCMXCIV" /\
  1994 = 997 * 2.
Proof.
  assert (arab2rzym 1994 = Ret "MCMXCIV") as H1 by reflexivity.
  assert (arab2rzym (997 * 2) = Ret "MCMXCIV") as H2 by reflexivity.
  split; [exact H1 | split; [exact H2|]].
  exact (arab2rzym_injective 1994 (997 * 2) "MCMXCIV" H1 H2).
Defined.

Lemma short_checked : forall_upto 4000 short_ok = true.
Proof. vm_compute. reflexivity. Qed.

Lemma run4_free_checked : forall_upto 3999 run4_free_ok = true.
Proof. vm_compute. reflexivity. Qed.

Lemma rzym2arab_Ret_valid (s : string) (n : Z) :
  rzym2arab s = Ret n -> s <> "" /\ isValidRzym s = true.
Proof.
  unfold rzym2arab. destruct (String.eqb_spec s ""); [discriminate|].
  cbv zeta. rewrite isValidRzym_upper.
  destruct (isValidRzym s); [auto | discriminate].
Qed.

Lemma numeral_upper_valid (n : Z) (s : string) :
  arab2rzym n = Ret s -> s <> "" /\ upper s = s /\ isValidRzym s = true.
Proof.
  intros E.
  destruct (roundtrip n (arab2rzym_Ret_range _ _ E)) as (s' & E' & R).
  assert (s' = s) as -> by congruence.
  destruct (rzym2arab_Ret_valid _ _ R) as [Hne Hv].
  split; [exact Hne | split; [|exact Hv]].
  apply rzym2arab_Ret_iff in R. congruence.
Qed.

(** X7. A numeral that [arab2rzym] returns is not empty, has at most 15
    characters, all of them uppercase glyphs of {I,V,X,L,C,D,M} (so
    [isValidRzym] accepts it and uppercasing leaves it as it is), and is
    not a string of digits. *)
Theorem arab2rzym_numeral_shape (n : Z) (s : string) :
  arab2rzym n = Ret s ->
  s <> "" /\
  (String.length s <= 15)%nat /\
  Forall (fun c => In c glyphs) (chars s) /\
  upper s = s /\
  isValidRzym s = true /\
  isValidArab s = false.
Proof.
  intros E. pose proof (arab2rzym_Ret_range _ _ E) as Hn.
  destruct (numeral_upper_valid _ _ E) as (Hne & Hu & Hv).
  split; [exact Hne|]. split; [|split; [|split; [exact Hu|split; [exact Hv|]]]].
  - pose proof (forall_upto_spec _ _ short_checked n Hn) as H.
    unfold short_ok in H. rewrite E in H. apply Nat.leb_le. exact H.
  - apply isValidRzym_true_iff in Hv.
    rewrite <- Hu, chars_upper. apply Forall_map. exact Hv.
  - destruct (isValidArab s) eqn:Ha; [|reflexivity].
    rewrite (digits_not_rzym s Hne Ha) in Hv. discriminate.
Qed.

Lemma arab2rzym_numeral_shape_witness :
  arab2rzym 3888 = Ret "MMMDCCCLXXXVIII" /\
  (String.length "MMMDCCCLXXXVIII" <= 15)%nat.
Proof.
  assert (arab2rzym 3888 = Ret "MMMDCCCLXXXVIII") as H by reflexivity.
  split; [exact H|].
  exact (proj1 (proj2 (arab2rzym_numeral_shape 3888 "MMMDCCCLXXXVIII" H))).
Defined.

Lemma has_run4_false (s : string) :
  has_run4 s = false ->
  forall p c q, s <> p ++ String c (String c (String c (String c q))).
Proof.
  intros H p. revert s H.
  induction p as [|a p IH]; intros s H c q E; subst s.
  - cbn [append has_run4] in H. rewrite !Ascii.eqb_refl in H. discriminate.
  - cbn [append] in H. cbn [has_run4] in H.
    apply orb_false_iff in H as [_ H].
    exact (IH _ H c q eq_refl).
Qed.

(** X8. For [1 <= n <= 3999] the numeral that [arab2rzym] returns has no
    glyph four times in a row.  ([arab2rzym 4000], "MMMM", has.) *)
Theorem arab2rzym_no_four_in_a_row (n : Z) (s : string) :
  1 <= n <= 3999 -> arab2rzym n = Ret s ->
  forall p c q, s <> p ++ String c (String c (String c (String c q))).
Proof.
  intros Hn E. apply has_run4_false.
  pose proof (forall_upto_spec _ _ run4_free_checked n) as H.
  unfold run4_free_ok in H. rewrite E in H.
  apply negb_true_iff. apply H. change (Z.of_nat 3999) with 3999. lia.
Qed.

Lemma arab2rzym_no_four_in_a_row_witness :
  1 <= 3888 <= 3999 /\
  arab2rzym 3888 = Ret "MMMDCCCLXXXVIII" /\
  forall p c q,
    "MMMDCCCLXXXVIII" <> p ++ String c (String c (String c (String c q))).
Proof.
  assert (1 <= 3888 <= 3999) as H1 by lia.
  assert (arab2rzym 3888 = Ret "MMMDCCCLXXXVIII") as H2 by reflexivity.
  split; [exact H1 | split; [exact H2|]].
  exact (arab2rzym_no_four_in_a_row 3888 "MMMDCCCLXXXVIII" H1 H2).
Defined.

(** ** The command line, argument after argument *)

Lemma main_body_numeral (n : Z) (numeral : string) :
  arab2rzym n = Ret numeral -> main_body numeral = Printed (RzymLine numeral n).
Proof.
  intros E.
  destruct (numeral_upper_valid _ _ E) as (_ & Hu & Hv).
  unfold main_body. cbv zeta. rewrite Hu, Hv.
  assert (rzym2arab numeral = Ret n) as ->; [|reflexivity].
  apply rzym2arab_Ret_iff. rewrite Hu. exact E.
Qed.

(** X12. The two directions of [main] are inverse on its own output: when
    [main] answers an argument with the line "n -> numeral", it answers
    the argument [numeral] with the line "numeral -> n". *)
Theorem main_body_round_trip (arg : string) (n : Z) (numeral : string) :
  main_body arg = Printed (ArabLine n numeral) ->
  main_body numeral = Printed (RzymLine numeral n).
Proof.
  intros H. apply main_body_numeral.
  unfold main_body in H. cbv zeta in H.
  destruct (isValidRzym (upper arg)).
  - destruct (rzym2arab (upper arg)); discriminate.
  - destruct (isValidArab (upper arg)); [|discriminate].
    destruct (stoi (upper arg)) as [e|v]; [discriminate|].
    destruct (arab2rzym v) eqn:E; try discriminate.
    injection H as -> ->. exact E.
Qed.

Lemma main_body_round_trip_witness :
  main_body "1994" = Printed (ArabLine 1994 "MCMXCIV") /\
  main_body "MCMXCIV" = Printed (RzymLine "MCMXCIV" 1994).
Proof.
  assert (main_body "1994" = Printed (ArabLine 1994 "MCMXCIV")) as H
      by reflexivity.
  split; [exact H | exact (main_body_round_trip "1994" 1994 "MCMXCIV" H)].
Defined.

Lemma main_nonempty (args : list string) :
  args <> [] -> main args = main_loop args.
Proof.
  destruct args as [|a args]; [contradiction|]. intros _.
  unfold main. cbn [List.length].
  destruct (Nat.ltb_spec (S (List.length args) + 1) 2); [lia | reflexivity].
Qed.

(** X13. Errors of the converter do not stop the batch: when no argument
    is a decimal numeral greater than [INT_MAX], [main] (given at least
    one argument) returns 0 after writing one line per argument, in the
    order of the arguments, each the line of [main_body] for its own
    argument alone. *)
Theorem main_batch (args : list string) :
  args <> [] ->
  Forall (fun arg => ~ overflows arg) args ->
  exists ls,
    main args = (ls, Return0) /\
    Forall2 (fun arg l => main_body arg = Printed l) args ls.
Proof.
  intros Hne Hall. rewrite (main_nonempty args Hne). clear Hne.
  induction Hall as [|a args Ha Hall IH].
  - exists []. split; [reflexivity | constructor].
  - destruct IH as (ls & E & F2).
    destruct (main_body_cases a) as [[Ho _] | [_ [l Hb]]]; [contradiction|].
    exists (l :: ls). cbn [main_loop]. rewrite Hb, E.
    split; [reflexivity | constructor; [exact Hb | exact F2]].
Qed.

Lemma main_batch_witness :
  ["IIII"; "12"; "x-1"] <> [] /\
  Forall (fun arg => ~ overflows arg) ["IIII"; "12"; "x-1"] /\
  exists ls,
    main ["IIII"; "12"; "x-1"] = (ls, Return0) /\
    Forall2 (fun arg l => main_body arg = Printed l) ["IIII"; "12"; "x-1"] ls.
Proof.
  assert (["IIII"; "12"; "x-1"] <> []) as H1 by discriminate.
  assert (Forall (fun arg => ~ overflows arg) ["IIII"; "12"; "x-1"]) as H2.
  { repeat constructor; intros (_ & Hd & Hv);
      first [discriminate Hd | vm_compute in Hv; discriminate Hv]. }
  split; [exact H1 | split; [exact H2|]].
  exact (main_batch ["IIII"; "12"; "x-1"] H1 H2).
Defined.



(** ** Rows of Pascal's triangle *)

Lemma wrap_int_small (z : Z) :
  -2147483648 <= z <= INT_MAX -> wrap_int z = z.
Proof.
  unfold wrap_int, INT_MAX. intros H.
  rewrite Z.mod_small by lia. lia.
Qed.

Lemma wrap_int_mod (z : Z) : wrap_int z mod 4294967296 = z mod 4294967296.
Proof.
  unfold wrap_int.
  rewrite Zminus_mod_idemp_l. f_equal. lia.
Qed.

Lemma wrap_int_congr (x y : Z) :
  x mod 4294967296 = y mod 4294967296 -> wrap_int x = wrap_int y.
Proof.
  intros H. unfold wrap_int.
  rewrite (Z.add_mod x), (Z.add_mod y), H by lia. reflexivity.
Qed.

Lemma wrap_int_add (x y : Z) :
  wrap_int (wrap_int x + wrap_int y) = wrap_int (x + y).
Proof.
  apply wrap_int_congr.
  rewrite Z.add_mod, !wrap_int_mod, <- Z.add_mod by lia. reflexivity.
Qed.

Lemma binom_above (n : nat) : forall m, (n < m)%nat -> binom n m = 0.
Proof.
  induction n as [|n IH]; intros [|m] H; try lia; cbn [binom];
    [reflexivity|].
  rewrite !IH by lia. reflexivity.
Qed.

Lemma binom_0 (n : nat) : binom n 0 = 1.
Proof. destruct n; reflexivity. Qed.

Lemma binom_diag (n : nat) : binom n n = 1.
Proof.
  induction n as [|n IH]; [reflexivity|].
  cbn [binom]. rewrite IH, binom_above by lia. reflexivity.
Qed.

Lemma binom_nonneg (n : nat) : forall m, 0 <= binom n m.
Proof.
  induction n as [|n IH]; intros [|m]; cbn [binom]; try lia.
  pose proof (IH m). pose proof (IH (S m)). lia.
Qed.

Lemma factorial_pos (k : nat) : 0 < factorial k.
Proof. induction k as [|k IH]; cbn [factorial]; lia. Qed.

(** The factorial formula, without division. *)
Lemma binom_fact (n : nat) :
  forall m, (m <= n)%nat ->
    binom n m * factorial m * factorial (n - m) = factorial n.
Proof.
  induction n as [|n IH]; intros m Hm.
  - assert (m = 0%nat) as -> by lia. reflexivity.
  - destruct m as [|m].
    + rewrite binom_0, Nat.sub_0_r. change (factorial 0) with 1. lia.
    + cbn [binom]. destruct (Nat.eq_dec m n) as [->|Hne].
      * rewrite binom_diag, binom_above, Nat.sub_diag by lia.
        change (factorial 0) with 1. lia.
      * pose proof (IH m ltac:(lia)) as E1.
        pose proof (IH (S m) ltac:(lia)) as E2.
        replace (S n - S m)%nat with (S (n - S m)) by lia.
        replace (n - m)%nat with (S (n - S m)) in E1 by lia.
        cbn [factorial] in *.
        transitivity (Z.of_nat (S m) * factorial n +
                      Z.of_nat (S (n - S m)) * factorial n);
          [|rewrite <- Z.mul_add_distr_r; f_equal; lia].
        rewrite <- E1 at 1. rewrite <- E2. ring.
Qed.

Lemma binom_sym (n m : nat) : (m <= n)%nat -> binom n m = binom n (n - m).
Proof.
  intros Hm.
  pose proof (binom_fact n m Hm) as E1.
  pose proof (binom_fact n (n - m)) as E2.
  replace (n - (n - m))%nat with m in E2 by lia.
  specialize (E2 ltac:(lia)).
  pose proof (factorial_pos m). pose proof (factorial_pos (n - m)).
  assert ((binom n m - binom n (n - m)) *
          (factorial m * factorial (n - m)) = 0) as E by lia.
  apply Z.mul_eq_0 in E as [E|E]; [lia|].
  apply Z.mul_eq_0 in E as [E|E]; lia.
Qed.


Lemma row_unfold (n : nat) :
  obliczenieNtegoWiersza (S (S n)) =
  map (fun i =>
         if Nat.eqb i 0 || Nat.eqb i (S (S n)) then 1
         else wrap_int (nth (i - 1) (obliczenieNtegoWiersza (S n)) 0 +
                        nth i (obliczenieNtegoWiersza (S n)) 0))
      (seq 0 (S (S (S n)))).
Proof. reflexivity. Qed.

(** Cell [m] of row [n] holds the binomial coefficient as an [int]. *)
Lemma row_nth (n : nat) :
  forall m, (m <= n)%nat ->
    nth m (obliczenieNtegoWiersza n) 0 = wrap_int (binom n m).
Proof.
  induction n as [|n IH]; intros m Hm.
  - assert (m = 0%nat) as -> by lia. reflexivity.
  - destruct n as [|n].
    + destruct m as [|[|m]]; [reflexivity | reflexivity | lia].
    + rewrite row_unfold.
      set (f := fun i : nat => _).
      rewrite (nth_indep _ 0 (f 0%nat))
        by (rewrite length_map, length_seq; lia).
      rewrite map_nth, seq_nth by lia. cbn [Nat.add]. unfold f.
      destruct (Nat.eqb_spec m 0) as [->|H0]; cbn [orb].
      * rewrite binom_0. reflexivity.
      * destruct (Nat.eqb_spec m (S (S n))) as [->|Hn].
        -- rewrite binom_diag. reflexivity.
        -- destruct m as [|m]; [contradiction|].
           replace (S m - 1)%nat with m by lia.
           rewrite !IH by lia. rewrite wrap_int_add. reflexivity.
Qed.

Lemma rows_fit_spec (n : nat) :
  rows_fit n = true ->
  forall k m, (k <= n)%nat -> (m <= k)%nat -> binom k m <= INT_MAX.
Proof.
  assert (forall k m, (m <= k)%nat ->
            (factorial k <=? INT_MAX * (factorial m * factorial (k - m))) = true ->
            binom k m <= INT_MAX) as Hcell.
  { intros k m Hm H. apply Z.leb_le in H.
    rewrite <- (binom_fact k m Hm) in H.
    pose proof (factorial_pos m). pose proof (factorial_pos (k - m)).
    apply (Z.mul_le_mono_pos_r _ _ (factorial m * factorial (k - m))); lia. }
  induction n as [|n IH]; cbn [rows_fit]; intros H k m Hk Hm;
    apply andb_true_iff in H as [Hrow Hrest].
  - assert (k = 0%nat) as -> by lia.
    rewrite forallb_forall in Hrow. apply Hcell, Hrow, in_seq; lia.
  - destruct (Nat.eq_dec k (S n)) as [->|Hne].
    + rewrite forallb_forall in Hrow. apply Hcell, Hrow, in_seq; lia.
    + apply (IH Hrest); lia.
Qed.

Lemma rows_fit_33 : rows_fit 33 = true.
Proof. vm_compute. reflexivity. Qed.

Lemma new_wiersz_ok (n : Z) :
  0 <= n < INT_MAX ->
  new_WierszTrojkataPascala n =
  inr (mkWiersz (obliczenieNtegoWiersza (Z.to_nat n)) (n + 1)).
Proof.
  intros H. unfold new_WierszTrojkataPascala.
  destruct (Z.ltb_spec n 0); [lia|].
  rewrite wrap_int_small by (unfold INT_MAX in *; lia). reflexivity.
Qed.

Lemma element_in_bounds (n m : Z) :
  0 <= n < INT_MAX -> 0 <= m <= n ->
  MtyElementWiersza
    (mkWiersz (obliczenieNtegoWiersza (Z.to_nat n)) (n + 1)) m =
  inr (wrap_int (binom (Z.to_nat n) (Z.to_nat m))).
Proof.
  intros Hn Hm. unfold MtyElementWiersza. cbn [size tablica].
  destruct (Z.ltb_spec m 0); [lia|].
  destruct (Z.geb_spec m (n + 1)); [lia|]. cbn [orb].
  rewrite row_nth by lia. reflexivity.
Qed.



(** X16. On the row built for [0 <= n < INT_MAX], [MtyElementWiersza]
    throws [out_of_range], naming the index, exactly for the indices
    [m < 0] and [m > n]; for every other index it returns a number. *)
Theorem MtyElementWiersza_bounds (n m : Z) (w : WierszTrojkataPascala) :
  0 <= n < INT_MAX ->
  new_WierszTrojkataPascala n = inr w ->
  (MtyElementWiersza w m = inl (LiczbaSpozaZakresu m) <-> m < 0 \/ n < m) /\
  (0 <= m <= n <-> exists v, MtyElementWiersza w m = inr v).
Proof.
  intros Hn E. rewrite (new_wiersz_ok n Hn) in E. injection E as <-.
  unfold MtyElementWiersza. cbn [size tablica].
  destruct (Z.ltb_spec m 0); destruct (Z.geb_spec m (n + 1)); cbn [orb].
  1-3: split;
    [ split; [intros _; lia | reflexivity]
    | split; [lia | intros [v Hv]; discriminate] ].
  split; [split; [discriminate | lia] | split; [eexists; reflexivity | lia]].
Qed.

Lemma MtyElementWiersza_bounds_witness :
  0 <= 4 < INT_MAX /\
  new_WierszTrojkataPascala 4 = inr (mkWiersz [1; 4; 6; 4; 1] 5) /\
  (MtyElementWiersza (mkWiersz [1; 4; 6; 4; 1] 5) 5
   = inl (LiczbaSpozaZakresu 5) <-> 5 < 0 \/ 4 < 5).
Proof.
  assert (0 <= 4 < INT_MAX) as H1 by (unfold INT_MAX; lia).
  assert (new_WierszTrojkataPascala 4 = inr (mkWiersz [1; 4; 6; 4; 1] 5))
    as H2 by reflexivity.
  split; [exact H1 | split; [exact H2|]].
  exact (proj1 (MtyElementWiersza_bounds 4 5 _ H1 H2)).
Defined.

(** X17. For [0 <= n <= 33] the row is the row of Pascal's triangle:
    cell [m] holds [n! / (m! (n - m)!)], stated without division.  (33 is
    the last such row: in row 34 the middle cell has wrapped round to a
    negative number.) *)
Theorem MtyElementWiersza_binomial (n m : Z) :
  0 <= n <= 33 -> 0 <= m <= n ->
  exists w v,
    new_WierszTrojkataPascala n = inr w /\
    MtyElementWiersza w m = inr v /\
    v * Zfact m * Zfact (n - m) = Zfact n.
Proof.
  intros Hn Hm.
  assert (0 <= n < INT_MAX) as Hn' by (unfold INT_MAX; lia).
  eexists. eexists. split; [exact (new_wiersz_ok n Hn')|].
  split; [exact (element_in_bounds n m Hn' Hm)|].
  pose proof (rows_fit_spec 33 rows_fit_33 (Z.to_nat n) (Z.to_nat m)
                ltac:(lia) ltac:(lia)) as Hfit.
  pose proof (binom_nonneg (Z.to_nat n) (Z.to_nat m)).
  rewrite wrap_int_small by lia.
  unfold Zfact. rewrite Z2Nat.inj_sub by lia.
  apply binom_fact. lia.
Qed.

Lemma MtyElementWiersza_binomial_witness :
  0 <= 33 <= 33 /\ 0 <= 16 <= 33 /\
  exists w v,
    new_WierszTrojkataPascala 33 = inr w /\
    MtyElementWiersza w 16 = inr v /\
    v * Zfact 16 * Zfact (33 - 16) = Zfact 33.
Proof.
  assert (0 <= 33 <= 33) as H1 by lia.
  assert (0 <= 16 <= 33) as H2 by lia.
  split; [exact H1 | split; [exact H2|]].
  exact (MtyElementWiersza_binomial 33 16 H1 H2).
Defined.



(** X19. A row reads the same from both ends: on the row built for
    [0 <= n < INT_MAX], the cells [m] and [n - m] hold the same number. *)
Theorem MtyElementWiersza_symmetric (n m : Z) (w : WierszTrojkataPascala) :
  0 <= n < INT_MAX -> 0 <= m <= n ->
  new_WierszTrojkataPascala n = inr w ->
  MtyElementWiersza w m = MtyElementWiersza w (n - m).
Proof.
  intros Hn Hm E. rewrite (new_wiersz_ok n Hn) in E. injection E as <-.
  rewrite !element_in_bounds by lia.
  rewrite Z2Nat.inj_sub by lia.
  rewrite (binom_sym (Z.to_nat n) (Z.to_nat m)) by lia. reflexivity.
Qed.

Lemma MtyElementWiersza_symmetric_witness :
  0 <= 4 < INT_MAX /\ 0 <= 1 <= 4 /\
  new_WierszTrojkataPascala 4 = inr (mkWiersz [1; 4; 6; 4; 1] 5) /\
  MtyElementWiersza (mkWiersz [1; 4; 6; 4; 1] 5) 1 =
  MtyElementWiersza (mkWiersz [1; 4; 6; 4; 1] 5) (4 - 1).
Proof.
  assert (0 <= 4 < INT_MAX) as H1 by (unfold INT_MAX; lia).
  assert (0 <= 1 <= 4) as H2 by lia.
  assert (new_WierszTrojkataPascala 4 = inr (mkWiersz [1; 4; 6; 4; 1] 5))
    as H3 by reflexivity.
  split; [exact H1 | split; [exact H2 | split; [exact H3|]]].
  exact (MtyElementWiersza_symmetric 4 1 _ H1 H2 H3).
Defined.
